(** * Caesar cipher (caesar_cipher.py): shallow embedding and properties

    A Python [str] is a sequence of Unicode code points, so a text is a
    list of code points held as [Z]; [ord] and [chr] are the two
    directions of that reading.  The interpreter's character tables
    ([str.isalpha], [str.isupper], [str.isspace], [str.lower], [int])
    are not part of the program: they are taken as a parameter
    ([Builtins]) and the general theorems hold for every such table.
    [cpython_latin1] gives CPython's values on U+0000..U+00FF for the
    closed examples. *)

From Stdlib Require Import ZArith List Lia Bool String Ascii DecimalString.
Import ListNotations.
Local Open Scope Z_scope.

(** ** Texts *)

Definition codepoint := Z.
Definition text := list codepoint.

Definition ord (ch : codepoint) : Z := ch.

(** [chr n] raises ValueError outside [range(0x110000)]; the only call
    site is shown below ([shift_char_chr_arg]) to stay inside it. *)
Definition chr (n : Z) : codepoint := n.

Definition valid_codepoint (c : Z) : Prop := 0 <= c <= 1114111.

(** An ASCII literal as a text (one code point per byte). *)
Definition str (s : string) : text :=
  map (fun a => Z.of_N (N_of_ascii a)) (list_ascii_of_string s).

Definition nl : text := [10].

Fixpoint text_eqb (a b : text) : bool :=
  match a, b with
  | [], [] => true
  | x :: a', y :: b' => (x =? y) && text_eqb a' b'
  | _, _ => false
  end.

(** ** The interpreter's tables *)

Record Builtins := {
  isalpha : codepoint -> bool;      (* ch.isalpha() on a one-character str *)
  isupper : codepoint -> bool;      (* ch.isupper() on a one-character str *)
  isspace : codepoint -> bool;      (* the characters str.strip() removes *)
  lower : text -> text;             (* str.lower() *)
  int : text -> option Z            (* int(s); None is ValueError *)
}.

Definition in_range (lo hi c : Z) : bool := (lo <=? c) && (c <=? hi).

Definition is_ascii_upper (c : Z) : bool := in_range 65 90 c.
Definition is_ascii_lower (c : Z) : bool := in_range 97 122 c.
Definition is_ascii_letter (c : Z) : bool := is_ascii_upper c || is_ascii_lower c.

(** The tables agree with Unicode on the ASCII block. *)
Record AsciiFaithful (U : Builtins) : Prop := {
  isalpha_ascii : forall c, 0 <= c < 128 -> isalpha U c = is_ascii_letter c;
  isupper_ascii : forall c, 0 <= c < 128 -> isupper U c = is_ascii_upper c
}.

(** Texts whose letters are all ASCII letters. *)
Definition ascii_letters (U : Builtins) (t : text) : Prop :=
  Forall (fun c => isalpha U c = true -> is_ascii_letter c = true) t.

(** Texts of the ASCII block. *)
Definition ascii_text (t : text) : Prop := Forall (fun c => 0 <= c < 128) t.

(** ** The cipher *)

Definition ALPHABET_SIZE : Z := 26.

Definition normalize_shift (shift : Z) : Z := shift mod ALPHABET_SIZE.

Section Cipher.

Variable U : Builtins.

Definition shift_char (ch : codepoint) (shift : Z) : codepoint :=
  if isalpha U ch then
    let base := if isupper U ch then ord 65 else ord 97 in
    chr ((ord ch - base + shift) mod ALPHABET_SIZE + base)
  else ch.

Definition encrypt (t : text) (shift : Z) : text :=
  let s := normalize_shift shift in
  map (fun c => shift_char c s) t.

Definition decrypt (t : text) (shift : Z) : text :=
  encrypt t (- shift).

(** [range(ALPHABET_SIZE)] *)
Definition range (n : Z) : list Z := map Z.of_nat (seq 0 (Z.to_nat n)).

Definition brute_force_candidates (t : text) : list (Z * text) :=
  map (fun s => (s, decrypt t s)) (range ALPHABET_SIZE).

End Cipher.

(** ** Console input and output

    [input(prompt)] writes the prompt and takes the next line of standard
    input, raising EOFError when none is left; [print(s)] writes [s] and a
    newline.  Standard output is kept as the sequence of writes. *)

Record world := { stdin : list text; stdout : list text }.

Inductive result (A : Type) : Type :=
| Ok (a : A)
| EOFError.
Arguments Ok {A} a.
Arguments EOFError {A}.

Definition IO (A : Type) : Type := world -> result A * world.

Definition ret {A} (a : A) : IO A := fun w => (Ok a, w).

Definition bind {A B} (m : IO A) (f : A -> IO B) : IO B :=
  fun w => match m w with
           | (Ok a, w') => f a w'
           | (EOFError, w') => (EOFError, w')
           end.

Declare Scope io_scope.
Delimit Scope io_scope with io.
Notation "x <- m ;; k" := (bind m (fun x => k))
  (at level 61, m at next level, right associativity) : io_scope.
Notation "m ;; k" := (bind m (fun _ => k))
  (at level 61, right associativity) : io_scope.
Local Open Scope io_scope.

Definition write (s : text) : IO unit :=
  fun w => (Ok tt, {| stdin := stdin w; stdout := stdout w ++ [s] |}).

Definition print (s : text) : IO unit := write (s ++ nl).

Definition input (prompt : text) : IO text :=
  fun w => match stdin w with
           | line :: rest =>
               (Ok line, {| stdin := rest; stdout := stdout w ++ [prompt] |})
           | [] =>
               (EOFError, {| stdin := []; stdout := stdout w ++ [prompt] |})
           end.

(** [for x in xs: body(x)] *)
Fixpoint for_each {A} (xs : list A) (body : A -> IO unit) : IO unit :=
  match xs with
  | [] => ret tt
  | x :: xs' => body x ;; for_each xs' body
  end.

(** How an iteration of [while True] ends: by [continue] (or by falling
    off the end of the body), or by [return]. *)
Inductive control : Type := Continue | Return.

(** [None] is the model running out of fuel, not a behaviour of the
    program; [while_true_total] rules it out for [interactive]. *)
Fixpoint while_true (fuel : nat) (body : IO control)
  : world -> option (result unit * world) :=
  fun w =>
    match fuel with
    | O => None
    | S fuel' =>
        match body w with
        | (Ok Continue, w') => while_true fuel' body w'
        | (Ok Return, w') => Some (Ok tt, w')
        | (EOFError, w') => Some (EOFError, w')
        end
    end.

(** ** Formatting *)

(** [str(n)] for an integer. *)
Definition str_int (n : Z) : text := str (NilZero.string_of_int (Z.to_int n)).

(** The format spec [:>w]: right-aligned in a field of width [w]. *)
Definition rjust (w : nat) (s : text) : text :=
  repeat 32 (w - List.length s) ++ s.

(** [s.strip()] *)
Definition lstrip (U : Builtins) (s : text) : text :=
  (fix go (s : text) : text :=
     match s with
     | c :: s' => if isspace U c then go s' else s
     | [] => []
     end) s.

Definition strip (U : Builtins) (s : text) : text :=
  rev (lstrip U (rev (lstrip U s))).

(** ** The two front ends *)

Section FrontEnds.

Variable U : Builtins.

Definition run_cli (mode : text) (shift : Z) (t : text) : IO unit :=
  if text_eqb mode (str "encrypt") then print (encrypt U t shift)
  else print (decrypt U t shift).

Definition banner : IO unit :=
  print (repeat 61 60) ;;
  print (str "                CAESAR CIPHER (interactive)") ;;
  print (repeat 61 60) ;;
  print (str "Tips:") ;;
  print (str "  " ++ [8226] ++ str " Enter 'E' to Encrypt, 'D' to Decrypt, or 'Q' to quit.") ;;
  print (str "  " ++ [8226] ++ str " For Decrypt, if you don't know the shift, enter '?' to try all keys.") ;;
  print [].

Definition mode_prompt : text := str "Mode [E/D/Q]: ".
Definition text_prompt : text := str "Enter your message: ".
Definition shift_prompt : text :=
  str "Enter shift (integer). For Decrypt, '?' = try all: ".
Definition shift_error : text :=
  str "Shift must be an integer (e.g., 3, -2, 52). Try again." ++ nl.

Definition report (label : text) (shift : Z) (res : text) : text :=
  nl ++ label ++ str " (shift " ++ str_int (normalize_shift shift)
     ++ str "): " ++ res ++ nl.

(** One pass through the body of [while True] in [interactive]. *)
Definition iteration : IO control :=
  raw_mode <- input mode_prompt ;;
  let mode := lower U (strip U raw_mode) in
  if text_eqb mode [] then ret Continue
  else if text_eqb mode (str "q") then
    print (str "Goodbye!") ;; ret Return
  else if negb (text_eqb mode (str "e") || text_eqb mode (str "d")) then
    print (str "Please enter E, D, or Q.") ;; ret Continue
  else
    t <- input text_prompt ;;
    raw_shift <- input shift_prompt ;;
    let shift_str := strip U raw_shift in
    if text_eqb mode (str "d") && text_eqb shift_str (str "?") then
      print (nl ++ str "Trying all 26 keys... (shift : candidate)") ;;
      for_each (brute_force_candidates U t)
        (fun '(s, candidate) =>
           print (rjust 2 (str_int s) ++ str " : " ++ candidate)) ;;
      print [] ;;
      ret Continue
    else
      match int U shift_str with
      | None => print shift_error ;; ret Continue
      | Some shift =>
          if text_eqb mode (str "e") then
            let res := encrypt U t shift in
            print (report (str "Encrypted") shift res) ;; ret Continue
          else
            let res := decrypt U t shift in
            print (report (str "Decrypted") shift res) ;; ret Continue
      end.

(** Every pass that continues has read a line, so one unit of fuel per
    line of input, and one more, is enough. *)
Definition interactive : world -> option (result unit * world) :=
  fun w =>
    match banner w with
    | (Ok _, w') => while_true (S (List.length (stdin w'))) iteration w'
    | (EOFError, w') => Some (EOFError, w')
    end.

(** What [parse_args] hands to [main]: each option is [None] when its
    flag is absent. *)
Record Namespace := {
  ns_mode : option text;
  ns_shift : option Z;
  ns_text : option text
}.

(** [choices] of [--mode] in [build_parser]; any other value is a usage
    error inside [parse_args] and never reaches [main]. *)
Definition mode_choices : list text := [str "encrypt"; str "decrypt"].

Definition parsed (args : Namespace) : Prop :=
  match ns_mode args with
  | None => True
  | Some m => In m mode_choices
  end.

(** Truth value of [args.mode]: [None] and the empty string are false. *)
Definition truthy (m : option text) : bool :=
  match m with
  | None => false
  | Some s => negb (text_eqb s [])
  end.

Definition is_not_None {A} (x : option A) : bool :=
  match x with Some _ => true | None => false end.

(** The condition of the [if] in [main]. *)
Definition batch_selected (args : Namespace) : bool :=
  truthy (ns_mode args) && is_not_None (ns_shift args)
    && is_not_None (ns_text args).

Definition main (args : Namespace) : world -> option (result unit * world) :=
  match ns_mode args, ns_shift args, ns_text args with
  | Some mode, Some shift, Some t =>
      if batch_selected args then fun w => Some (run_cli mode shift t w)
      else interactive
  | _, _, _ => interactive
  end.

End FrontEnds.

(** ** CPython's tables on U+0000..U+00FF

    Letters of the Latin-1 block besides A-Z and a-z: U+00AA, U+00B5,
    U+00BA, U+00C0..U+00D6, U+00D8..U+00F6, U+00F8..U+00FF; of these
    U+00C0..U+00D6 and U+00D8..U+00DE are upper case, and their lower-case
    forms lie 32 above.  White space: U+0009..U+000D, U+001C..U+0020,
    U+0085, U+00A0.  The only decimal digits are 0-9.  Code points above
    U+00FF are outside these tables. *)

Definition latin1_isalpha (c : codepoint) : bool :=
  is_ascii_letter c || (c =? 170) || (c =? 181) || (c =? 186)
  || in_range 192 214 c || in_range 216 246 c || in_range 248 255 c.

Definition latin1_isupper (c : codepoint) : bool :=
  is_ascii_upper c || in_range 192 214 c || in_range 216 222 c.

Definition latin1_isspace (c : codepoint) : bool :=
  in_range 9 13 c || in_range 28 32 c || (c =? 133) || (c =? 160).

Definition latin1_lower (s : text) : text :=
  map (fun c => if latin1_isupper c then c + 32 else c) s.

(** [int(s)] in base 10.  White space and digits outside ASCII are first
    brought to ASCII (the literal is cut at the first character that is
    neither); then: optional white space, an optional sign, digits with
    single underscores between them, optional white space.  More than
    [MAX_STR_DIGITS] digits are refused. *)
Definition ctype_space (c : Z) : bool := in_range 9 13 c || (c =? 32).

Fixpoint decimal_and_space_to_ascii (s : text) : text :=
  match s with
  | [] => []
  | c :: s' =>
      if c <? 127 then c :: decimal_and_space_to_ascii s'
      else if latin1_isspace c then 32 :: decimal_and_space_to_ascii s'
      else [63]
  end.

Fixpoint skip_space (s : text) : text :=
  match s with
  | c :: s' => if ctype_space c then skip_space s' else s
  | [] => []
  end.

Fixpoint scan_digits (acc : Z) (n : nat) (prev : Z) (s : text)
  : option (Z * nat * text) :=
  match s with
  | c :: s' =>
      if c =? 95 then
        if prev =? 95 then None else scan_digits acc n c s'
      else if in_range 48 57 c then
        scan_digits (10 * acc + (c - 48)) (S n) c s'
      else if prev =? 95 then None else Some (acc, n, s)
  | [] => if prev =? 95 then None else Some (acc, n, [])
  end.

Definition MAX_STR_DIGITS : nat := 4300.

Definition latin1_int (s : text) : option Z :=
  let a := if forallb (fun c => c <? 128) s then s
           else decimal_and_space_to_ascii s in
  let b := skip_space a in
  let '(sign, d) := match b with
                    | 43 :: r => (1, r)
                    | 45 :: r => (-1, r)
                    | _ => (1, b)
                    end in
  match d with
  | 95 :: _ => None
  | _ =>
      match scan_digits 0 0 0 d with
      | Some (v, n, rest) =>
          if ((n =? 0)%nat || (MAX_STR_DIGITS <? n)%nat) then None
          else match skip_space rest with
               | [] => Some (sign * v)
               | _ :: _ => None
               end
      | None => None
      end
  end.

Definition cpython_latin1 : Builtins := {|
  isalpha := latin1_isalpha;
  isupper := latin1_isupper;
  isspace := latin1_isspace;
  lower := latin1_lower;
  int := latin1_int
|}.

(** * Properties *)

Lemma text_eqb_eq (a b : text) : text_eqb a b = true <-> a = b.
Proof.
  revert b; induction a as [|x a IH]; intros [|y b]; simpl;
    try (split; [discriminate | discriminate]); try tauto.
  rewrite andb_true_iff, Z.eqb_eq, IH.
  split; [intros [-> ->]; reflexivity | intros E; inversion E; auto].
Qed.

Lemma text_eqb_refl (a : text) : text_eqb a a = true.
Proof. apply text_eqb_eq; reflexivity. Qed.

Lemma normalize_shift_range (s : Z) : 0 <= normalize_shift s < 26.
Proof. unfold normalize_shift, ALPHABET_SIZE; apply Z.mod_pos_bound; lia. Qed.

Lemma normalize_shift_idem (s : Z) :
  normalize_shift (normalize_shift s) = normalize_shift s.
Proof. unfold normalize_shift, ALPHABET_SIZE; apply Z.mod_mod; lia. Qed.

Lemma cpython_latin1_ascii : AsciiFaithful cpython_latin1.
Proof.
  split; intros c Hc; simpl;
    unfold latin1_isalpha, latin1_isupper, in_range.
  - replace (c =? 170) with false by lia.
    replace (c =? 181) with false by lia.
    replace (c =? 186) with false by lia.
    replace (c <=? 214) with true by lia.
    replace (c <=? 246) with true by lia.
    replace (c <=? 255) with true by lia.
    replace (192 <=? c) with false by lia.
    replace (216 <=? c) with false by lia.
    replace (248 <=? c) with false by lia.
    simpl; rewrite !orb_false_r; reflexivity.
  - replace (192 <=? c) with false by lia.
    replace (216 <=? c) with false by lia.
    simpl; rewrite !orb_false_r; reflexivity.
Qed.

Section CipherFacts.

Variable U : Builtins.

(** The argument of [chr] in [shift_char] is the code point of a letter
    of the case chosen by [base], so [chr] never raises. *)
Lemma shift_char_chr_arg (ch shift base : Z) :
  base = 65 \/ base = 97 ->
  base <= (ord ch - base + shift) mod ALPHABET_SIZE + base <= base + 25
  /\ valid_codepoint ((ord ch - base + shift) mod ALPHABET_SIZE + base).
Proof.
  intros Hb. unfold ALPHABET_SIZE, valid_codepoint.
  pose proof (Z.mod_pos_bound (ord ch - base + shift) 26 ltac:(lia)).
  lia.
Qed.

Lemma shift_char_not_alpha (ch shift : Z) :
  isalpha U ch = false -> shift_char U ch shift = ch.
Proof. intros H; unfold shift_char; rewrite H; reflexivity. Qed.

Lemma shift_char_alpha (ch shift : Z) :
  isalpha U ch = true ->
  shift_char U ch shift =
    (ch - (if isupper U ch then 65 else 97) + shift) mod 26
    + (if isupper U ch then 65 else 97).
Proof.
  intros H; unfold shift_char, ord, chr, ALPHABET_SIZE; rewrite H.
  destruct (isupper U ch); reflexivity.
Qed.

Lemma encrypt_length (t : text) (shift : Z) :
  List.length (encrypt U t shift) = List.length t.
Proof. unfold encrypt; apply length_map. Qed.

Lemma encrypt_nth (t : text) (shift : Z) (i : nat) :
  nth_error (encrypt U t shift) i =
    option_map (fun c => shift_char U c (normalize_shift shift))
      (nth_error t i).
Proof. unfold encrypt; apply nth_error_map. Qed.

End CipherFacts.

(** ** The text codec *)

Section CodecProperties.

Variable U : Builtins.

Lemma shift_back (x s : Z) :
  0 <= x < 26 -> ((x + s mod 26) mod 26 + (- s) mod 26) mod 26 = x.
Proof.
  intros Hx.
  rewrite Z.add_mod_idemp_l by lia.
  rewrite <- Z.add_assoc, <- Z.add_mod_idemp_r by lia.
  rewrite <- Z.add_mod by lia.
  rewrite Z.add_opp_diag_r, Z.mod_0_l, Z.add_0_r by lia.
  apply Z.mod_small; lia.
Qed.

Lemma ascii_letter_bounds (c : Z) :
  is_ascii_letter c = true ->
  (is_ascii_upper c = true /\ 65 <= c <= 90)
  \/ (is_ascii_upper c = false /\ 97 <= c <= 122).
Proof.
  unfold is_ascii_letter, is_ascii_upper, is_ascii_lower, in_range.
  intros H.
  destruct (65 <=? c) eqn:E1, (c <=? 90) eqn:E2; simpl in *; lia.
Qed.

Lemma shift_char_roundtrip_ascii (c shift : Z) :
  AsciiFaithful U ->
  (isalpha U c = true -> is_ascii_letter c = true) ->
  shift_char U (shift_char U c (normalize_shift shift))
    (normalize_shift (- shift)) = c.
Proof.
  intros [Ha Hu] Hc.
  destruct (isalpha U c) eqn:Ealpha.
  - specialize (Hc eq_refl).
    assert (Hshape : forall base, (base = 65 \/ base = 97) ->
              base <= c <= base + 25 ->
              isupper U c = (base =? 65) ->
              shift_char U (shift_char U c (normalize_shift shift))
                (normalize_shift (- shift)) = c).
    { intros base Hb Hr Hup.
      rewrite (shift_char_alpha U c _ Ealpha), Hup.
      set (e := (c - (if base =? 65 then 65 else 97) + normalize_shift shift)
                  mod 26 + (if base =? 65 then 65 else 97)).
      assert (He : base <= e <= base + 25).
      { subst e. pose proof (Z.mod_pos_bound
          (c - (if base =? 65 then 65 else 97) + normalize_shift shift) 26
          ltac:(lia)).
        destruct Hb; subst base; simpl in *; lia. }
      assert (Hea : isalpha U e = true).
      { rewrite Ha by lia.
        unfold is_ascii_letter, is_ascii_upper, is_ascii_lower, in_range.
        destruct Hb; subst base; lia. }
      assert (Heu : isupper U e = (base =? 65)).
      { rewrite Hu by lia. unfold is_ascii_upper, in_range.
        destruct Hb; subst base; simpl; lia. }
      rewrite (shift_char_alpha U e _ Hea), Heu.
      subst e. unfold normalize_shift, ALPHABET_SIZE.
      destruct Hb; subst base; simpl.
      + replace ((c - 65 + shift mod 26) mod 26 + 65 - 65)
          with ((c - 65 + shift mod 26) mod 26) by lia.
        rewrite shift_back by lia. lia.
      + replace ((c - 97 + shift mod 26) mod 26 + 97 - 97)
          with ((c - 97 + shift mod 26) mod 26) by lia.
        rewrite shift_back by lia. lia. }
    destruct (ascii_letter_bounds c Hc) as [[Eu Hr] | [Eu Hr]].
    + apply (Hshape 65); [lia | lia |]. rewrite Hu by lia. exact Eu.
    + apply (Hshape 97); [lia | lia |]. rewrite Hu by lia. exact Eu.
  - rewrite !shift_char_not_alpha; auto.
    rewrite shift_char_not_alpha; auto.
Qed.

(** Round trip on the texts the cipher is meant for: when every letter
    of the text is an ASCII letter, decrypting with the same shift gives
    the text back. *)
Lemma roundtrip_ascii_letters (t : text) (shift : Z) :
  AsciiFaithful U -> ascii_letters U t ->
  decrypt U (encrypt U t shift) shift = t.
Proof.
  intros HU Ht. unfold decrypt, encrypt. rewrite map_map.
  induction Ht as [|c t Hc Ht IH]; simpl; [reflexivity|].
  rewrite IH. f_equal.
  apply shift_char_roundtrip_ascii; assumption.
Qed.

Lemma shift_char_zero_ascii (c : Z) :
  AsciiFaithful U ->
  (isalpha U c = true -> is_ascii_letter c = true) ->
  shift_char U c 0 = c.
Proof.
  intros [Ha Hu] Hc.
  destruct (isalpha U c) eqn:Ealpha;
    [|apply shift_char_not_alpha; assumption].
  rewrite (shift_char_alpha U c _ Ealpha).
  destruct (ascii_letter_bounds c (Hc eq_refl)) as [[Eu Hr] | [Eu Hr]];
    rewrite Hu, Eu by lia; rewrite Z.add_0_r, Z.mod_small by lia; lia.
Qed.

(** Identity shift on the same texts. *)
Lemma identity_shift_ascii_letters (t : text) :
  AsciiFaithful U -> ascii_letters U t ->
  encrypt U t 0 = t /\ decrypt U t 0 = t.
Proof.
  intros HU Ht. unfold decrypt, encrypt. simpl.
  assert (E : map (fun c => shift_char U c (normalize_shift 0)) t = t).
  { induction Ht as [|c t Hc Ht IH]; simpl; [reflexivity|].
    rewrite IH. f_equal. apply shift_char_zero_ascii; assumption. }
  split; exact E.
Qed.

Lemma shift_char_ascii (c shift : Z) :
  AsciiFaithful U -> 0 <= c < 128 ->
  shift_char U c shift = shift_char cpython_latin1 c shift.
Proof.
  intros [Ha Hu] Hc. destruct cpython_latin1_ascii as [Ha' Hu'].
  unfold shift_char. rewrite Ha, Hu, Ha', Hu' by assumption. reflexivity.
Qed.

Lemma encrypt_ascii (t : text) (shift : Z) :
  AsciiFaithful U -> ascii_text t ->
  encrypt U t shift = encrypt cpython_latin1 t shift.
Proof.
  intros HU Ht. unfold encrypt.
  induction Ht as [|c t Hc Ht IH]; simpl; [reflexivity|].
  rewrite IH. f_equal. apply shift_char_ascii; assumption.
Qed.

(** C5. Shift normalization: encrypting with any integer shift, negative
    or beyond 26 included, is encrypting with its remainder modulo 26,
    and that remainder lies in [0, 26). *)
Theorem encrypt_shift_normalization (t : text) (shift : Z) :
  encrypt U t shift = encrypt U t (shift mod 26)
  /\ normalize_shift shift = shift mod 26
  /\ 0 <= shift mod 26 < 26.
Proof.
  split; [|split].
  - unfold encrypt.
    change (shift mod 26) with (normalize_shift shift).
    rewrite normalize_shift_idem. reflexivity.
  - reflexivity.
  - apply Z.mod_pos_bound; lia.
Qed.

(** C6. Length and order preservation: the output of [encrypt] has the
    length of its input, and its character at each position is the
    shift transform of the input's character at that position. *)
Theorem encrypt_preserves_length_and_order (t : text) (shift : Z) :
  List.length (encrypt U t shift) = List.length t
  /\ forall i : nat,
       nth_error (encrypt U t shift) i =
         option_map (fun c => shift_char U c (normalize_shift shift))
           (nth_error t i).
Proof.
  split; [apply encrypt_length | intros i; apply encrypt_nth].
Qed.

(** C4. [brute_force_candidates] returns exactly 26 pairs, and the pair
    at position k, for k from 0 to 25, is (k, decrypt(T, k)). *)
Theorem brute_force_candidates_spec (t : text) :
  List.length (brute_force_candidates U t) = 26%nat
  /\ forall k : nat, (k < 26)%nat ->
       nth_error (brute_force_candidates U t) k =
         Some (Z.of_nat k, decrypt U t (Z.of_nat k)).
Proof.
  unfold brute_force_candidates, range, ALPHABET_SIZE.
  split.
  - rewrite !length_map, length_seq. reflexivity.
  - intros k Hk.
    rewrite !nth_error_map.
    rewrite (nth_error_nth' _ 0%nat) by (rewrite length_seq; simpl; lia).
    rewrite seq_nth by (simpl; lia).
    reflexivity.
Qed.

(** C8. Reference vectors: with shift 3, Hello, World! becomes
    Khoor, Zruog!, and with shift 2, abcXYZ becomes cdeZAB. *)
Theorem reference_vectors :
  AsciiFaithful U ->
  encrypt U (str "Hello, World!") 3 = str "Khoor, Zruog!"
  /\ encrypt U (str "abcXYZ") 2 = str "cdeZAB".
Proof.
  intros HU.
  split; (rewrite encrypt_ascii;
          [reflexivity | assumption
          | unfold ascii_text; simpl; repeat constructor; lia]).
Qed.

End CodecProperties.

Lemma brute_force_candidates_spec_witness :
  (3 < 26)%nat
  /\ nth_error (brute_force_candidates cpython_latin1 (str "Khoor")) 3 =
       Some (3, decrypt cpython_latin1 (str "Khoor") 3).
Proof.
  split; [lia|].
  apply (proj2 (brute_force_candidates_spec cpython_latin1 (str "Khoor")) 3%nat).
  lia.
Defined.

Lemma reference_vectors_witness :
  encrypt cpython_latin1 (str "Hello, World!") 3 = str "Khoor, Zruog!"
  /\ encrypt cpython_latin1 (str "abcXYZ") 2 = str "cdeZAB".
Proof.
  apply (reference_vectors cpython_latin1). exact cpython_latin1_ascii.
Defined.

(** ** Letters outside ASCII

    [str.isalpha] holds of every Unicode letter, while the arithmetic of
    [shift_char] is that of the 26 letters above its base: a letter
    outside ASCII, such as U+00E9 (233, a lower-case e with acute accent),
    is sent to an ASCII letter whatever the shift, and is lost. *)

Lemma shift_char_e_acute (shift : Z) :
  shift_char cpython_latin1 233 shift = (136 + shift) mod 26 + 97.
Proof.
  unfold shift_char, ord, chr, ALPHABET_SIZE.
  change (isalpha cpython_latin1 233) with true.
  change (isupper cpython_latin1 233) with false.
  cbv iota. replace (233 - 97 + shift) with (136 + shift) by lia.
  reflexivity.
Qed.

(** C2 fails on the code: U+00E9 is not an ASCII letter, yet the shift
    transform changes it for every shift; with shift 0 it becomes g
    (103). *)
Theorem shift_char_changes_non_ascii_letter :
  is_ascii_letter 233 = false
  /\ (forall shift : Z, shift_char cpython_latin1 233 shift <> 233)
  /\ shift_char cpython_latin1 233 0 = 103.
Proof.
  split; [reflexivity | split; [|reflexivity]].
  intros shift. rewrite shift_char_e_acute.
  pose proof (Z.mod_pos_bound (136 + shift) 26 ltac:(lia)). lia.
Qed.

(** C3 fails on the code: with shift 0, the one-character text U+00E9 is
    encrypted, and decrypted, to g (103) instead of being returned
    unchanged. *)
Theorem identity_shift_changes_non_ascii_letter :
  encrypt cpython_latin1 [233] 0 = [103]
  /\ decrypt cpython_latin1 [233] 0 = [103].
Proof. split; reflexivity. Qed.

(** C1 fails on the code: for every shift, encrypting the one-character
    text U+00E9 and decrypting the result with the same shift gives g
    (103), not the original text. *)
Theorem roundtrip_loses_non_ascii_letter (shift : Z) :
  decrypt cpython_latin1 (encrypt cpython_latin1 [233] shift) shift = [103].
Proof.
  unfold decrypt, encrypt. simpl map.
  rewrite shift_char_e_acute.
  set (e := (136 + normalize_shift shift) mod 26 + 97).
  assert (He : 97 <= e <= 122).
  { subst e. pose proof (Z.mod_pos_bound (136 + normalize_shift shift) 26
      ltac:(lia)). lia. }
  assert (Hea : isalpha cpython_latin1 e = true).
  { rewrite (isalpha_ascii _ cpython_latin1_ascii) by lia.
    unfold is_ascii_letter, is_ascii_upper, is_ascii_lower, in_range. lia. }
  assert (Heu : isupper cpython_latin1 e = false).
  { rewrite (isupper_ascii _ cpython_latin1_ascii) by lia.
    unfold is_ascii_upper, in_range. lia. }
  rewrite (shift_char_alpha _ e _ Hea), Heu.
  subst e. unfold normalize_shift, ALPHABET_SIZE.
  replace ((136 + shift mod 26) mod 26 + 97 - 97)
    with ((136 + shift mod 26) mod 26) by lia.
  replace (136 + shift mod 26) with (6 + shift mod 26 + 5 * 26) by lia.
  rewrite Z_mod_plus_full, shift_back by lia.
  reflexivity.
Qed.

(** ** The interactive loop *)

(** Decide the comparisons between literals and take the branches
    they select. *)
Ltac ground_tests :=
  repeat match goal with
    | |- context [text_eqb (str ?a) (str ?b)] =>
        let v := eval vm_compute in (text_eqb (str a) (str b)) in
        change (text_eqb (str a) (str b)) with v
    | |- context [text_eqb (str ?a) []] =>
        let v := eval vm_compute in (text_eqb (str a) []) in
        change (text_eqb (str a) []) with v
    end;
  cbn [stdin stdout negb orb andb].

Section LoopFacts.

Variable U : Builtins.

Lemma text_eqb_neq (a b : text) : a <> b -> text_eqb a b = false.
Proof.
  intros H. destruct (text_eqb a b) eqn:E; [|reflexivity].
  apply text_eqb_eq in E. contradiction.
Qed.

Lemma print_run (s : text) (w : world) :
  print s w = (Ok tt, {| stdin := stdin w; stdout := stdout w ++ [s ++ nl] |}).
Proof. reflexivity. Qed.

Lemma for_each_writes {A} (xs : list A) (body : A -> IO unit) (g : A -> text) :
  (forall x w, body x w =
     (Ok tt, {| stdin := stdin w; stdout := stdout w ++ [g x] |})) ->
  forall w, for_each xs body w =
     (Ok tt, {| stdin := stdin w; stdout := stdout w ++ map g xs |}).
Proof.
  intros Hbody. induction xs as [|x xs IH]; intros w; simpl.
  - unfold ret. rewrite app_nil_r. destruct w; reflexivity.
  - unfold bind. rewrite Hbody, IH. simpl.
    rewrite <- app_assoc. reflexivity.
Qed.

(** The line written for each candidate of the brute-force listing. *)
Lemma candidate_lines (t : text) (w : world) :
  for_each (brute_force_candidates U t)
    (fun '(s, candidate) =>
       print (rjust 2 (str_int s) ++ str " : " ++ candidate)) w =
  (Ok tt, {| stdin := stdin w;
             stdout := stdout w ++
               map (fun '(s, candidate) =>
                      (rjust 2 (str_int s) ++ str " : " ++ candidate) ++ nl)
                   (brute_force_candidates U t) |}).
Proof.
  apply for_each_writes. intros [s candidate] w'. apply print_run.
Qed.

(** *** The transitions of one pass, by what is read *)

Lemma iteration_eof (out : list text) :
  iteration U {| stdin := []; stdout := out |} =
    (EOFError, {| stdin := []; stdout := out ++ [mode_prompt] |}).
Proof. reflexivity. Qed.

Lemma iteration_empty_mode (raw : text) (rest out : list text) :
  lower U (strip U raw) = [] ->
  iteration U {| stdin := raw :: rest; stdout := out |} =
    (Ok Continue, {| stdin := rest; stdout := out ++ [mode_prompt] |}).
Proof.
  intros E. unfold iteration, bind, input. cbn [stdin stdout].
  rewrite E. reflexivity.
Qed.

Lemma iteration_quit (raw : text) (rest out : list text) :
  lower U (strip U raw) = str "q" ->
  iteration U {| stdin := raw :: rest; stdout := out |} =
    (Ok Return,
     {| stdin := rest;
        stdout := out ++ [mode_prompt; str "Goodbye!" ++ nl] |}).
Proof.
  intros E. unfold iteration, bind, input. cbn [stdin stdout].
  rewrite E. cbn. rewrite <- app_assoc. reflexivity.
Qed.

Lemma iteration_other_mode (raw : text) (rest out : list text) :
  let mode := lower U (strip U raw) in
  mode <> [] -> mode <> str "q" -> mode <> str "e" -> mode <> str "d" ->
  iteration U {| stdin := raw :: rest; stdout := out |} =
    (Ok Continue,
     {| stdin := rest;
        stdout := out ++ [mode_prompt; str "Please enter E, D, or Q." ++ nl] |}).
Proof.
  intros mode H0 Hq He Hd. unfold iteration, bind, input. cbn [stdin stdout].
  fold mode.
  rewrite (text_eqb_neq _ _ H0), (text_eqb_neq _ _ Hq),
    (text_eqb_neq _ _ He), (text_eqb_neq _ _ Hd).
  cbn. rewrite <- app_assoc. reflexivity.
Qed.

(** After a mode of e or d the pass reads the text and the shift. *)
Lemma iteration_text_eof (raw : text) (out : list text) :
  lower U (strip U raw) = str "e" \/ lower U (strip U raw) = str "d" ->
  iteration U {| stdin := [raw]; stdout := out |} =
    (EOFError, {| stdin := []; stdout := out ++ [mode_prompt; text_prompt] |}).
Proof.
  intros [E | E]; unfold iteration, bind, input; cbn [stdin stdout];
    rewrite E; cbn; rewrite <- app_assoc; reflexivity.
Qed.

Lemma iteration_shift_eof (raw t : text) (out : list text) :
  lower U (strip U raw) = str "e" \/ lower U (strip U raw) = str "d" ->
  iteration U {| stdin := [raw; t]; stdout := out |} =
    (EOFError,
     {| stdin := [];
        stdout := out ++ [mode_prompt; text_prompt; shift_prompt] |}).
Proof.
  intros [E | E]; unfold iteration, bind, input; cbn [stdin stdout];
    rewrite E; cbn; rewrite <- !app_assoc; reflexivity.
Qed.

Lemma iteration_brute_force (raw t raw_shift : text) (rest out : list text) :
  lower U (strip U raw) = str "d" ->
  strip U raw_shift = str "?" ->
  iteration U {| stdin := raw :: t :: raw_shift :: rest; stdout := out |} =
    (Ok Continue,
     {| stdin := rest;
        stdout := out ++
          [mode_prompt; text_prompt; shift_prompt;
           (nl ++ str "Trying all 26 keys... (shift : candidate)") ++ nl]
          ++ map (fun '(s, candidate) =>
                    (rjust 2 (str_int s) ++ str " : " ++ candidate) ++ nl)
                 (brute_force_candidates U t)
          ++ [nl] |}).
Proof.
  intros E Eq. unfold iteration, bind, input. cbn [stdin stdout].
  rewrite E. ground_tests. rewrite Eq. ground_tests.
  rewrite print_run. cbn [stdin stdout].
  rewrite candidate_lines. cbn [stdin stdout].
  rewrite print_run. cbn [stdin stdout ret].
  f_equal. f_equal.
  repeat rewrite <- app_assoc. reflexivity.
Qed.

Lemma iteration_parse_error (raw t raw_shift : text) (rest out : list text) :
  let mode := lower U (strip U raw) in
  mode = str "e" \/ mode = str "d" ->
  ~ (mode = str "d" /\ strip U raw_shift = str "?") ->
  int U (strip U raw_shift) = None ->
  iteration U {| stdin := raw :: t :: raw_shift :: rest; stdout := out |} =
    (Ok Continue,
     {| stdin := rest;
        stdout := out ++
          [mode_prompt; text_prompt; shift_prompt; shift_error ++ nl] |}).
Proof.
  intros mode Hmode Hq Hint. unfold iteration, bind, input.
  cbn [stdin stdout]. fold mode.
  destruct Hmode as [E | E]; rewrite E in *; ground_tests.
  - rewrite Hint, print_run. cbn [stdin stdout ret].
    repeat rewrite <- app_assoc. reflexivity.
  - rewrite text_eqb_neq
      by (intros X; apply Hq; split; [reflexivity | exact X]).
    rewrite Hint, print_run. cbn [stdin stdout ret].
    repeat rewrite <- app_assoc. reflexivity.
Qed.

Lemma iteration_encrypt (raw t raw_shift : text) (rest out : list text)
    (shift : Z) :
  lower U (strip U raw) = str "e" ->
  int U (strip U raw_shift) = Some shift ->
  iteration U {| stdin := raw :: t :: raw_shift :: rest; stdout := out |} =
    (Ok Continue,
     {| stdin := rest;
        stdout := out ++
          [mode_prompt; text_prompt; shift_prompt;
           report (str "Encrypted") shift (encrypt U t shift) ++ nl] |}).
Proof.
  intros E Hint. unfold iteration, bind, input. cbn [stdin stdout].
  rewrite E. ground_tests. rewrite Hint. ground_tests.
  rewrite print_run. cbn [stdin stdout ret].
  repeat rewrite <- app_assoc. reflexivity.
Qed.

Lemma iteration_decrypt (raw t raw_shift : text) (rest out : list text)
    (shift : Z) :
  lower U (strip U raw) = str "d" ->
  strip U raw_shift <> str "?" ->
  int U (strip U raw_shift) = Some shift ->
  iteration U {| stdin := raw :: t :: raw_shift :: rest; stdout := out |} =
    (Ok Continue,
     {| stdin := rest;
        stdout := out ++
          [mode_prompt; text_prompt; shift_prompt;
           report (str "Decrypted") shift (decrypt U t shift) ++ nl] |}).
Proof.
  intros E Hq Hint. unfold iteration, bind, input. cbn [stdin stdout].
  rewrite E. ground_tests. rewrite (text_eqb_neq _ _ Hq), Hint. ground_tests.
  rewrite print_run. cbn [stdin stdout ret].
  repeat rewrite <- app_assoc. reflexivity.
Qed.

End LoopFacts.

Section LoopProperties.

Variable U : Builtins.

Lemma text_eq_dec (a b : text) : {a = b} + {a <> b}.
Proof. apply list_eq_dec, Z.eq_dec. Qed.

(** A pass that continues has read at least one line. *)
Lemma iteration_consumes (w w' : world) :
  iteration U w = (Ok Continue, w') ->
  (List.length (stdin w') < List.length (stdin w))%nat.
Proof.
  destruct w as [inp out]. destruct inp as [|raw inp].
  { rewrite iteration_eof. discriminate. }
  set (mode := lower U (strip U raw)).
  destruct (text_eq_dec mode []) as [E0 | N0].
  { rewrite iteration_empty_mode by exact E0.
    intros H; inversion H; subst; simpl; lia. }
  destruct (text_eq_dec mode (str "q")) as [Eq | Nq].
  { rewrite iteration_quit by exact Eq. discriminate. }
  destruct (text_eq_dec mode (str "e")) as [Ee | Ne];
    [|destruct (text_eq_dec mode (str "d")) as [Ed | Nd]].
  3: { rewrite iteration_other_mode by assumption.
       intros H; inversion H; subst; simpl; lia. }
  all: destruct inp as [|t [|raw_shift rest]];
    [ rewrite iteration_text_eof by auto; discriminate
    | rewrite iteration_shift_eof by auto; discriminate | ].
  - destruct (int U (strip U raw_shift)) as [shift|] eqn:Hint.
    + rewrite (iteration_encrypt U _ _ _ _ _ shift) by assumption.
      intros H; inversion H; subst; simpl; lia.
    + rewrite iteration_parse_error; auto.
      * intros H; inversion H; subst; simpl; lia.
      * fold mode. rewrite Ee. intros [X _]. discriminate X.
  - destruct (text_eq_dec (strip U raw_shift) (str "?")) as [Eb | Nb].
    { rewrite iteration_brute_force by assumption.
      intros H; inversion H; subst; simpl; lia. }
    destruct (int U (strip U raw_shift)) as [shift|] eqn:Hint.
    + rewrite (iteration_decrypt U _ _ _ _ _ shift) by assumption.
      intros H; inversion H; subst; simpl; lia.
    + rewrite iteration_parse_error; auto.
      * intros H; inversion H; subst; simpl; lia.
      * intros [_ X]. contradiction.
Qed.

(** Whatever is read, a pass starts by writing the mode prompt and only
    adds to what was written before. *)
Lemma iteration_prompts_mode (w w2 : world) (r : result control) :
  iteration U w = (r, w2) ->
  exists more, stdout w2 = stdout w ++ mode_prompt :: more.
Proof.
  assert (Hfin : forall (x y : result control * world) out,
             x = y ->
             (exists more, stdout (snd x) = out ++ mode_prompt :: more) ->
             exists more, stdout (snd y) = out ++ mode_prompt :: more)
    by (intros x y out ->; auto).
  intros H. change w2 with (snd (r, w2)). eapply Hfin; [exact H|]. clear H.
  destruct w as [inp out]. cbn [stdout]. destruct inp as [|raw inp].
  { rewrite iteration_eof. eexists; reflexivity. }
  set (mode := lower U (strip U raw)).
  destruct (text_eq_dec mode []) as [E0 | N0].
  { rewrite iteration_empty_mode by exact E0. eexists; reflexivity. }
  destruct (text_eq_dec mode (str "q")) as [Eq | Nq].
  { rewrite iteration_quit by exact Eq. eexists; reflexivity. }
  destruct (text_eq_dec mode (str "e")) as [Ee | Ne];
    [|destruct (text_eq_dec mode (str "d")) as [Ed | Nd]].
  3: { rewrite iteration_other_mode by assumption. eexists; reflexivity. }
  all: destruct inp as [|t [|raw_shift rest]];
    [ rewrite iteration_text_eof by auto; eexists; reflexivity
    | rewrite iteration_shift_eof by auto; eexists; reflexivity | ].
  - destruct (int U (strip U raw_shift)) as [shift|] eqn:Hint.
    + rewrite (iteration_encrypt U _ _ _ _ _ shift) by assumption.
      eexists; reflexivity.
    + rewrite iteration_parse_error; auto; [eexists; reflexivity|].
      fold mode. rewrite Ee. intros [X _]. discriminate X.
  - destruct (text_eq_dec (strip U raw_shift) (str "?")) as [Eb | Nb].
    { rewrite iteration_brute_force by assumption. eexists; reflexivity. }
    destruct (int U (strip U raw_shift)) as [shift|] eqn:Hint.
    + rewrite (iteration_decrypt U _ _ _ _ _ shift) by assumption.
      eexists; reflexivity.
    + rewrite iteration_parse_error; auto; [eexists; reflexivity|].
      intros [_ X]. contradiction.
Qed.

(** With more fuel than lines of input the loop ends, by [return] or by
    EOFError. *)
Lemma while_true_total (fuel : nat) (w : world) :
  (List.length (stdin w) < fuel)%nat ->
  while_true fuel (iteration U) w <> None.
Proof.
  revert w. induction fuel as [|fuel IH]; intros w Hlen; [lia|].
  simpl. destruct (iteration U w) as [[[|]|] w'] eqn:E; try discriminate.
  apply IH. apply iteration_consumes in E. lia.
Qed.

Lemma banner_run (w : world) :
  exists lines, banner w =
    (Ok tt, {| stdin := stdin w; stdout := stdout w ++ lines |}).
Proof.
  unfold banner, bind. rewrite !print_run. cbn [stdin stdout].
  repeat rewrite <- app_assoc. eexists. reflexivity.
Qed.

Lemma interactive_total (w : world) : interactive U w <> None.
Proof.
  unfold interactive. destruct (banner_run w) as [lines ->].
  apply while_true_total. simpl. lia.
Qed.

(** C7. When the shift that was entered fails integer parsing, the pass
    prints the error message and ends by [continue]: the loop goes on
    with the next mode prompt, in a state that keeps nothing of the text
    that was entered. *)
Theorem shift_parse_error_recovers
    (raw t raw_shift : text) (rest out : list text) (fuel : nat) :
  let mode := lower U (strip U raw) in
  let w := {| stdin := raw :: t :: raw_shift :: rest; stdout := out |} in
  let w' := {| stdin := rest;
               stdout := out ++ [mode_prompt; text_prompt; shift_prompt;
                                 shift_error ++ nl] |} in
  mode = str "e" \/ mode = str "d" ->
  ~ (mode = str "d" /\ strip U raw_shift = str "?") ->
  int U (strip U raw_shift) = None ->
  iteration U w = (Ok Continue, w')
  /\ while_true (S fuel) (iteration U) w = while_true fuel (iteration U) w'
  /\ exists more,
       stdout (snd (iteration U w')) = stdout w' ++ mode_prompt :: more.
Proof.
  intros mode w w' Hmode Hq Hint.
  assert (E : iteration U w = (Ok Continue, w'))
    by (apply iteration_parse_error; assumption).
  split; [exact E|]. split; [simpl; rewrite E; reflexivity|].
  destruct (iteration U w') as [r w2] eqn:E2.
  apply (iteration_prompts_mode _ _ _ E2).
Qed.

(** C10. The mode line counts only through its stripped, lower-cased
    form and the shift line only through its stripped form, so  Q  with
    blanks around it quits and  3  with blanks around it is the shift 3;
    the message is handed as it was typed, blanks included, to
    [encrypt], to [decrypt] and to the brute-force listing. *)
Theorem interactive_strips_mode_and_shift_only :
  (forall (m1 m2 : text) (rest out : list text),
      lower U (strip U m1) = lower U (strip U m2) ->
      iteration U {| stdin := m1 :: rest; stdout := out |} =
      iteration U {| stdin := m2 :: rest; stdout := out |})
  /\ (forall (m t s1 s2 : text) (rest out : list text),
      lower U (strip U m) = str "e" \/ lower U (strip U m) = str "d" ->
      strip U s1 = strip U s2 ->
      iteration U {| stdin := m :: t :: s1 :: rest; stdout := out |} =
      iteration U {| stdin := m :: t :: s2 :: rest; stdout := out |})
  /\ (forall (m t s : text) (rest out : list text) (shift : Z),
      lower U (strip U m) = str "e" ->
      int U (strip U s) = Some shift ->
      iteration U {| stdin := m :: t :: s :: rest; stdout := out |} =
        (Ok Continue,
         {| stdin := rest;
            stdout := out ++
              [mode_prompt; text_prompt; shift_prompt;
               report (str "Encrypted") shift (encrypt U t shift) ++ nl] |}))
  /\ (forall (m t s : text) (rest out : list text) (shift : Z),
      lower U (strip U m) = str "d" ->
      strip U s <> str "?" ->
      int U (strip U s) = Some shift ->
      iteration U {| stdin := m :: t :: s :: rest; stdout := out |} =
        (Ok Continue,
         {| stdin := rest;
            stdout := out ++
              [mode_prompt; text_prompt; shift_prompt;
               report (str "Decrypted") shift (decrypt U t shift) ++ nl] |}))
  /\ (forall (m t s : text) (rest out : list text),
      lower U (strip U m) = str "d" ->
      strip U s = str "?" ->
      iteration U {| stdin := m :: t :: s :: rest; stdout := out |} =
        (Ok Continue,
         {| stdin := rest;
            stdout := out ++
              [mode_prompt; text_prompt; shift_prompt;
               (nl ++ str "Trying all 26 keys... (shift : candidate)") ++ nl]
              ++ map (fun k => (rjust 2 (str_int k) ++ str " : "
                                 ++ decrypt U t k) ++ nl)
                     (range ALPHABET_SIZE)
              ++ [nl] |}))
  /\ (forall rest out : list text,
      iteration cpython_latin1 {| stdin := str " Q " :: rest; stdout := out |} =
        (Ok Return,
         {| stdin := rest;
            stdout := out ++ [mode_prompt; str "Goodbye!" ++ nl] |}))
  /\ (forall rest out : list text,
      iteration cpython_latin1
        {| stdin := str "e" :: str " hi " :: str " 3 " :: rest;
           stdout := out |} =
        (Ok Continue,
         {| stdin := rest;
            stdout := out ++
              [mode_prompt; text_prompt; shift_prompt;
               report (str "Encrypted") 3 (str " kl ") ++ nl] |}))
  /\ (forall rest out : list text,
      iteration cpython_latin1
        {| stdin := str "d" :: str " kl " :: str " 3 " :: rest;
           stdout := out |} =
        (Ok Continue,
         {| stdin := rest;
            stdout := out ++
              [mode_prompt; text_prompt; shift_prompt;
               report (str "Decrypted") 3 (str " hi ") ++ nl] |}))
  /\ (forall rest out : list text,
      exists before after,
        iteration cpython_latin1
          {| stdin := str "d" :: str " kl " :: str " ? " :: rest;
             stdout := out |} =
          (Ok Continue,
           {| stdin := rest;
              stdout := out ++ before
                ++ [str " 3 :  hi " ++ nl] ++ after |})
        /\ List.length before = 7%nat).
Proof.
  repeat apply conj.
  - intros m1 m2 rest out E.
    unfold iteration, bind, input. cbn [stdin stdout]. rewrite E. reflexivity.
  - intros m t s1 s2 rest out Hm E.
    unfold iteration, bind, input. cbn [stdin stdout].
    destruct Hm as [Em | Em]; rewrite Em; ground_tests;
      rewrite E; reflexivity.
  - intros m t s rest out shift Em Hint. apply iteration_encrypt; assumption.
  - intros m t s rest out shift Em Hq Hint.
    apply iteration_decrypt; assumption.
  - intros m t s rest out Em Eq.
    rewrite iteration_brute_force by assumption.
    unfold brute_force_candidates. rewrite map_map. reflexivity.
  - intros rest out. apply iteration_quit. reflexivity.
  - intros rest out.
    rewrite (iteration_encrypt cpython_latin1 _ _ _ _ _ 3) by reflexivity.
    reflexivity.
  - intros rest out.
    rewrite (iteration_decrypt cpython_latin1 _ _ _ _ _ 3);
      [reflexivity | reflexivity
      | intros H; vm_compute in H; discriminate H | reflexivity].
  - intros rest out.
    rewrite iteration_brute_force by reflexivity.
    eexists (_ :: _ :: _ :: _ :: _ :: _ :: _ :: []), _.
    split; [|reflexivity].
    f_equal. f_equal. f_equal. vm_compute. reflexivity.
Qed.

(** C9. [main] takes the batch path exactly when the mode, the shift
    and the text are all given; a shift of 0 and an empty text count as
    given. *)
Theorem main_batch_dispatch :
  (forall args : Namespace, parsed args ->
      (batch_selected args = true <->
         ns_mode args <> None /\ ns_shift args <> None
         /\ ns_text args <> None))
  /\ (forall (args : Namespace) (mode : text) (shift : Z) (t : text),
      parsed args ->
      ns_mode args = Some mode -> ns_shift args = Some shift ->
      ns_text args = Some t ->
      forall w, main U args w = Some (run_cli U mode shift t w))
  /\ (forall args : Namespace,
      batch_selected args = false -> main U args = interactive U)
  /\ (forall mode : text, In mode mode_choices ->
      forall w,
        main U {| ns_mode := Some mode; ns_shift := Some 0;
                  ns_text := Some [] |} w =
          Some (run_cli U mode 0 [] w)).
Proof.
  assert (Htruthy : forall m, In m mode_choices -> truthy (Some m) = true).
  { intros m [<- | [<- | []]]; reflexivity. }
  repeat apply conj.
  - intros [[m|] [s|] [t|]] Hp; unfold batch_selected, parsed in *;
      cbn [ns_mode ns_shift ns_text is_not_None] in *;
      try rewrite (Htruthy m Hp); cbn [truthy andb];
      split; try discriminate; try (intros (A & B & C); congruence);
      intros _; repeat split; discriminate.
  - intros [m s t] mode shift t' Hp Hm Hs Ht w.
    unfold parsed in Hp. cbn [ns_mode ns_shift ns_text] in *. subst.
    unfold main, batch_selected. cbn [ns_mode ns_shift ns_text is_not_None].
    rewrite (Htruthy mode Hp). reflexivity.
  - intros [[m|] [s|] [t|]] Hb; unfold main;
      cbn [ns_mode ns_shift ns_text]; try reflexivity.
    rewrite Hb. reflexivity.
  - intros mode Hm w. unfold main, batch_selected.
    cbn [ns_mode ns_shift ns_text is_not_None].
    rewrite (Htruthy mode Hm). reflexivity.
Qed.

End LoopProperties.

Lemma shift_parse_error_recovers_witness :
  iteration cpython_latin1
    {| stdin := [str "e"; str "hi"; str "x"; str "q"]; stdout := [] |} =
    (Ok Continue,
     {| stdin := [str "q"];
        stdout := [mode_prompt; text_prompt; shift_prompt;
                   shift_error ++ nl] |})
  /\ while_true 2 (iteration cpython_latin1)
       {| stdin := [str "e"; str "hi"; str "x"; str "q"]; stdout := [] |} =
     while_true 1 (iteration cpython_latin1)
       {| stdin := [str "q"];
          stdout := [mode_prompt; text_prompt; shift_prompt;
                     shift_error ++ nl] |}
  /\ exists more,
       stdout (snd (iteration cpython_latin1
                      {| stdin := [str "q"];
                         stdout := [mode_prompt; text_prompt; shift_prompt;
                                    shift_error ++ nl] |})) =
       [mode_prompt; text_prompt; shift_prompt; shift_error ++ nl]
         ++ mode_prompt :: more.
Proof.
  apply (shift_parse_error_recovers cpython_latin1
           (str "e") (str "hi") (str "x") [str "q"] [] 1%nat).
  - left. reflexivity.
  - intros [H _]. vm_compute in H. discriminate H.
  - reflexivity.
Defined.

Lemma interactive_strips_mode_and_shift_only_witness :
  iteration cpython_latin1 {| stdin := [str " Q "]; stdout := [] |} =
  iteration cpython_latin1 {| stdin := [str "q"]; stdout := [] |}.
Proof.
  apply (proj1 (interactive_strips_mode_and_shift_only cpython_latin1)
           (str " Q ") (str "q") [] []).
  reflexivity.
Defined.

Lemma main_batch_dispatch_witness :
  main cpython_latin1
    {| ns_mode := Some (str "encrypt"); ns_shift := Some 0;
       ns_text := Some [] |} {| stdin := []; stdout := [] |} =
  Some (run_cli cpython_latin1 (str "encrypt") 0 []
          {| stdin := []; stdout := [] |}).
Proof.
  apply (proj2 (proj2 (proj2 (main_batch_dispatch cpython_latin1)))
           (str "encrypt")).
  simpl. left. reflexivity.
Defined.

(** ** Further properties of the codec *)

Section CodecAlgebra.

Variable U : Builtins.

Lemma shift_twice (x a b : Z) :
  ((x + a mod 26) mod 26 + b mod 26) mod 26 = (x + (a + b) mod 26) mod 26.
Proof.
  rewrite Z.add_mod_idemp_l by lia.
  rewrite <- Z.add_assoc.
  rewrite (Z.add_mod x (a mod 26 + b mod 26)) by lia.
  rewrite <- (Z.add_mod a b) by lia.
  rewrite (Z.add_mod x ((a + b) mod 26)) by lia.
  rewrite Z.mod_mod by lia. reflexivity.
Qed.

(** The image of a letter is an ASCII letter of the case [isupper] gave
    to the original. *)
Lemma shift_char_letter (c shift : Z) :
  AsciiFaithful U -> isalpha U c = true ->
  let base := if isupper U c then 65 else 97 in
  base <= shift_char U c shift <= base + 25
  /\ isalpha U (shift_char U c shift) = true
  /\ isupper U (shift_char U c shift) = isupper U c.
Proof.
  intros [Ha Hu] Hc base.
  rewrite (shift_char_alpha U c shift Hc). fold base.
  pose proof (Z.mod_pos_bound (c - base + shift) 26 ltac:(lia)) as Hm.
  assert (Hb : base = 65 \/ base = 97)
    by (subst base; destruct (isupper U c); auto).
  split; [lia|]. split.
  - rewrite Ha by lia.
    unfold is_ascii_letter, is_ascii_upper, is_ascii_lower, in_range.
    destruct Hb as [E | E]; rewrite E in *; lia.
  - rewrite Hu by lia. unfold is_ascii_upper, in_range.
    subst base. destruct (isupper U c); lia.
Qed.

Lemma shift_char_compose (c a b : Z) :
  AsciiFaithful U ->
  shift_char U (shift_char U c (normalize_shift a)) (normalize_shift b) =
  shift_char U c (normalize_shift (a + b)).
Proof.
  intros HU. destruct (isalpha U c) eqn:Hc.
  - destruct (shift_char_letter c (normalize_shift a) HU Hc) as (_ & Ha' & Hu').
    rewrite (shift_char_alpha U _ _ Ha'), Hu'.
    rewrite !(shift_char_alpha U c _ Hc).
    unfold normalize_shift, ALPHABET_SIZE.
    set (base := if isupper U c then 65 else 97).
    replace ((c - base + a mod 26) mod 26 + base - base)
      with ((c - base + a mod 26) mod 26) by lia.
    rewrite shift_twice. reflexivity.
  - rewrite !shift_char_not_alpha; auto.
    rewrite shift_char_not_alpha; auto.
Qed.

Lemma encrypt_compose_aux (t : text) (a b : Z) :
  AsciiFaithful U ->
  encrypt U (encrypt U t a) b = encrypt U t (a + b).
Proof.
  intros HU. unfold encrypt. rewrite map_map.
  apply map_ext. intros c. apply shift_char_compose. exact HU.
Qed.

Lemma normalize_shift_zero_sum (s : Z) :
  normalize_shift (s + - s) = normalize_shift 0
  /\ normalize_shift (- s + s) = normalize_shift 0.
Proof. split; f_equal; lia. Qed.

Lemma encrypt_same_shift (t : text) (a b : Z) :
  normalize_shift a = normalize_shift b -> encrypt U t a = encrypt U t b.
Proof. intros E. unfold encrypt. rewrite E. reflexivity. Qed.

Lemma normalize_neg_mod (s : Z) :
  normalize_shift (- (s mod 26)) = normalize_shift (- s).
Proof.
  unfold normalize_shift, ALPHABET_SIZE.
  pose proof (Z.mod_eq s 26 ltac:(lia)) as E.
  replace (- (s mod 26)) with (- s + (s / 26) * 26) by lia.
  apply Z_mod_plus_full.
Qed.

Lemma candidates_nth (t : text) (k : nat) :
  (k < 26)%nat ->
  nth_error (brute_force_candidates U t) k =
    Some (Z.of_nat k, decrypt U t (Z.of_nat k)).
Proof.
  intros Hk. unfold brute_force_candidates, range, ALPHABET_SIZE.
  rewrite !nth_error_map.
  rewrite (nth_error_nth' _ 0%nat) by (rewrite length_seq; simpl; lia).
  rewrite seq_nth by (simpl; lia).
  reflexivity.
Qed.

Lemma ascii_letters_encrypt (t : text) (shift : Z) :
  AsciiFaithful U -> ascii_letters U (encrypt U t shift).
Proof.
  intros HU. unfold ascii_letters, encrypt. apply Forall_map.
  apply Forall_forall. intros c _ Hal.
  destruct (isalpha U c) eqn:Hc.
  - destruct (shift_char_letter c (normalize_shift shift) HU Hc)
      as (Hr & _ & _).
    unfold is_ascii_letter, is_ascii_upper, is_ascii_lower, in_range.
    destruct (isupper U c); lia.
  - rewrite shift_char_not_alpha in Hal by exact Hc. congruence.
Qed.

(** X1. Shifts add up: encrypting with [a] and then with [b] is
    encrypting once with [a + b], for every text, when the tables agree
    with Unicode on ASCII. *)
Theorem encrypt_compose (t : text) (a b : Z) :
  AsciiFaithful U ->
  encrypt U (encrypt U t a) b = encrypt U t (a + b).
Proof. apply encrypt_compose_aux. Qed.

(** X2. On a text whose letters are all ASCII letters, [decrypt] undoes
    [encrypt] with the same shift, and [encrypt] undoes [decrypt]. *)
Theorem codec_inverse_on_ascii_letters (t : text) (shift : Z) :
  AsciiFaithful U -> ascii_letters U t ->
  decrypt U (encrypt U t shift) shift = t
  /\ encrypt U (decrypt U t shift) shift = t.
Proof.
  intros HU Ht.
  destruct (identity_shift_ascii_letters U t HU Ht) as [E0 _].
  unfold decrypt. rewrite !encrypt_compose_aux by exact HU.
  split.
  - rewrite (encrypt_same_shift t (shift + - shift) 0); [exact E0|].
    apply normalize_shift_zero_sum.
  - rewrite (encrypt_same_shift t (- shift + shift) 0); [exact E0|].
    apply normalize_shift_zero_sum.
Qed.

(** X3. On a text whose letters are all ASCII letters, every multiple
    of 26 is an identity shift for [encrypt] and for [decrypt]. *)
Theorem multiples_of_26_are_identity (t : text) (k : Z) :
  AsciiFaithful U -> ascii_letters U t ->
  encrypt U t (26 * k) = t /\ decrypt U t (26 * k) = t.
Proof.
  intros HU Ht.
  destruct (identity_shift_ascii_letters U t HU Ht) as [E0 _].
  assert (N : forall j, normalize_shift (26 * j) = normalize_shift 0).
  { intros j. unfold normalize_shift, ALPHABET_SIZE.
    rewrite Z.mul_comm, Z_mod_mult. reflexivity. }
  split.
  - rewrite (encrypt_same_shift t (26 * k) 0); [exact E0 | apply N].
  - unfold decrypt.
    rewrite (encrypt_same_shift t (- (26 * k)) 0); [exact E0|].
    replace (- (26 * k)) with (26 * - k) by lia. apply N.
Qed.

(** X4. The shift transform keeps the class and the case of a
    character: the image is a letter exactly when the character is, and
    is upper case exactly when the character is. *)
Theorem shift_char_keeps_class_and_case (c shift : Z) :
  AsciiFaithful U ->
  isalpha U (shift_char U c shift) = isalpha U c
  /\ isupper U (shift_char U c shift) = isupper U c.
Proof.
  intros HU. destruct (isalpha U c) eqn:Hc.
  - destruct (shift_char_letter c shift HU Hc) as (_ & Ha & Hu). auto.
  - rewrite shift_char_not_alpha by exact Hc. auto.
Qed.

(** X5. Whatever the text, every letter of the output of [encrypt] is
    an ASCII letter. *)
Theorem encrypt_output_letters_are_ascii (t : text) (shift : Z) :
  AsciiFaithful U -> ascii_letters U (encrypt U t shift).
Proof. apply ascii_letters_encrypt. Qed.

(** X6. [chr] is never called out of range: the shift transform sends a
    valid code point to a valid code point, so [encrypt] sends a text of
    valid code points to one. *)
Theorem encrypt_valid_codepoints (t : text) (shift : Z) :
  Forall valid_codepoint t -> Forall valid_codepoint (encrypt U t shift).
Proof.
  intros Ht. unfold encrypt. apply Forall_map.
  eapply Forall_impl; [|exact Ht]. intros c Hc.
  unfold shift_char. destruct (isalpha U c); [|exact Hc].
  destruct (isupper U c);
    apply (shift_char_chr_arg c (normalize_shift shift)); auto.
Qed.

(** X7. Shifts that differ by a multiple of 26 encrypt alike, and
    decrypting with a shift is encrypting with 26 minus that shift. *)
Theorem encrypt_period_26 (t : text) (shift k : Z) :
  encrypt U t (shift + 26 * k) = encrypt U t shift
  /\ decrypt U t (shift + 26 * k) = decrypt U t shift
  /\ decrypt U t shift = encrypt U t (26 - shift).
Proof.
  assert (P : forall s j, normalize_shift (s + 26 * j) = normalize_shift s).
  { intros s j. unfold normalize_shift, ALPHABET_SIZE.
    rewrite (Z.mul_comm 26 j). apply Z_mod_plus_full. }
  repeat split.
  - apply encrypt_same_shift, P.
  - unfold decrypt. apply encrypt_same_shift.
    replace (- (shift + 26 * k)) with (- shift + 26 * - k) by lia. apply P.
  - unfold decrypt. apply encrypt_same_shift.
    replace (26 - shift) with (- shift + 26 * 1) by lia.
    symmetry. apply P.
Qed.

(** X8. With a given shift, two texts whose letters are all ASCII
    letters have the same encryption only if they are the same text. *)
Theorem encrypt_injective_on_ascii_letters (t1 t2 : text) (shift : Z) :
  AsciiFaithful U -> ascii_letters U t1 -> ascii_letters U t2 ->
  encrypt U t1 shift = encrypt U t2 shift -> t1 = t2.
Proof.
  intros HU H1 H2 E.
  rewrite <- (roundtrip_ascii_letters U t1 shift HU H1).
  rewrite <- (roundtrip_ascii_letters U t2 shift HU H2).
  rewrite E. reflexivity.
Qed.

(** X9. The brute-force list holds every decryption: for any integer
    shift, the entry at position shift mod 26 carries the text decrypted
    with that shift. *)
Theorem brute_force_holds_every_decryption (t : text) (shift : Z) :
  nth_error (brute_force_candidates U t) (Z.to_nat (shift mod 26)) =
    Some (shift mod 26, decrypt U t shift).
Proof.
  pose proof (Z.mod_pos_bound shift 26 ltac:(lia)) as Hm.
  rewrite candidates_nth by lia.
  rewrite Z2Nat.id by lia.
  f_equal. f_equal. unfold decrypt. apply encrypt_same_shift.
  apply normalize_neg_mod.
Qed.

(** X10. Brute force recovers the plaintext: for a text whose letters
    are all ASCII letters, encrypted with any shift, the candidate at
    position shift mod 26 is the original text, and the candidate at
    position 0 is the ciphertext itself. *)
Theorem brute_force_recovers_plaintext (t : text) (shift : Z) :
  AsciiFaithful U -> ascii_letters U t ->
  nth_error (brute_force_candidates U (encrypt U t shift))
    (Z.to_nat (shift mod 26)) = Some (shift mod 26, t)
  /\ nth_error (brute_force_candidates U (encrypt U t shift)) 0 =
       Some (0, encrypt U t shift).
Proof.
  intros HU Ht. split.
  - pose proof (Z.mod_pos_bound shift 26 ltac:(lia)) as Hm.
    rewrite candidates_nth by lia. rewrite Z2Nat.id by lia.
    f_equal. f_equal.
    rewrite <- (roundtrip_ascii_letters U t shift HU Ht) at 2.
    unfold decrypt. apply encrypt_same_shift.
    apply normalize_neg_mod.
  - rewrite candidates_nth by lia. simpl Z.of_nat.
    f_equal. f_equal.
    destruct (identity_shift_ascii_letters U (encrypt U t shift) HU
                (ascii_letters_encrypt t shift HU)) as [_ E].
    exact E.
Qed.

End CodecAlgebra.

(** ** Further properties of the two front ends *)

Section FrontEndBehaviour.

Variable U : Builtins.

(** How a pass can end, and what it has read by then. *)
Lemma iteration_outcome (w : world) :
  match fst (iteration U w) with
  | Ok Return =>
      exists raw,
        stdin w = raw :: stdin (snd (iteration U w))
        /\ lower U (strip U raw) = str "q"
        /\ stdout (snd (iteration U w)) =
             stdout w ++ [mode_prompt; str "Goodbye!" ++ nl]
  | Ok Continue =>
      exists pre, pre <> [] /\ stdin w = pre ++ stdin (snd (iteration U w))
  | EOFError => stdin (snd (iteration U w)) = []
  end.
Proof.
  destruct w as [inp out]. destruct inp as [|raw inp].
  { rewrite iteration_eof. reflexivity. }
  set (mode := lower U (strip U raw)).
  destruct (text_eq_dec mode []) as [E0 | N0].
  { rewrite iteration_empty_mode by exact E0. cbn [fst snd stdin stdout].
    exists [raw]. split; [discriminate | reflexivity]. }
  destruct (text_eq_dec mode (str "q")) as [Eq | Nq].
  { rewrite iteration_quit by exact Eq. cbn [fst snd stdin stdout].
    exists raw. auto. }
  destruct (text_eq_dec mode (str "e")) as [Ee | Ne];
    [|destruct (text_eq_dec mode (str "d")) as [Ed | Nd]].
  3: { rewrite iteration_other_mode by assumption. cbn [fst snd stdin stdout].
       exists [raw]. split; [discriminate | reflexivity]. }
  all: destruct inp as [|t [|raw_shift rest]];
    [ rewrite iteration_text_eof by auto; reflexivity
    | rewrite iteration_shift_eof by auto; reflexivity | ].
  - destruct (int U (strip U raw_shift)) as [shift|] eqn:Hint.
    + rewrite (iteration_encrypt U _ _ _ _ _ shift) by assumption.
      cbn [fst snd stdin stdout].
      exists [raw; t; raw_shift]. split; [discriminate | reflexivity].
    + rewrite iteration_parse_error; auto.
      * cbn [fst snd stdin stdout].
        exists [raw; t; raw_shift]. split; [discriminate | reflexivity].
      * fold mode. rewrite Ee. intros [X _]. discriminate X.
  - destruct (text_eq_dec (strip U raw_shift) (str "?")) as [Eb | Nb].
    { rewrite iteration_brute_force by assumption. cbn [fst snd stdin stdout].
      exists [raw; t; raw_shift]. split; [discriminate | reflexivity]. }
    destruct (int U (strip U raw_shift)) as [shift|] eqn:Hint.
    + rewrite (iteration_decrypt U _ _ _ _ _ shift) by assumption.
      cbn [fst snd stdin stdout].
      exists [raw; t; raw_shift]. split; [discriminate | reflexivity].
    + rewrite iteration_parse_error; auto.
      * cbn [fst snd stdin stdout].
        exists [raw; t; raw_shift]. split; [discriminate | reflexivity].
      * intros [_ X]. contradiction.
Qed.

Lemma while_true_exit (fuel : nat) (w w' : world) (r : result unit) :
  while_true fuel (iteration U) w = Some (r, w') ->
  match r with
  | Ok _ =>
      exists pre raw out0,
        stdin w = pre ++ raw :: stdin w'
        /\ lower U (strip U raw) = str "q"
        /\ stdout w' = out0 ++ [mode_prompt; str "Goodbye!" ++ nl]
  | EOFError => stdin w' = []
  end.
Proof.
  revert w. induction fuel as [|fuel IH]; intros w H; [discriminate|].
  cbn [while_true] in H. pose proof (iteration_outcome w) as Ho.
  destruct (iteration U w) as [[[|]|] w1]; cbn [fst snd] in Ho.
  - destruct Ho as (pre & _ & Epre). specialize (IH w1 H).
    destruct r; [|exact IH].
    destruct IH as (pre' & raw & out0 & E1 & Eq & Eo).
    exists (pre ++ pre'), raw, out0. rewrite Epre, E1, <- app_assoc. auto.
  - inversion H; subst. destruct Ho as (raw & E1 & Eq & Eo).
    exists [], raw, (stdout w). auto.
  - inversion H; subst. exact Ho.
Qed.

Lemma rjust_shift_field (k : nat) :
  (k < 26)%nat -> List.length (rjust 2 (str_int (Z.of_nat k))) = 2%nat.
Proof.
  intros Hk.
  do 26 (destruct k as [|k]; [reflexivity|]). lia.
Qed.


(** X12. The brute-force pass: in decrypt mode with ? as the shift, the
    pass writes the heading, then 26 lines, then an empty line, and
    continues; line k is the shift k right-aligned in a field of width
    2, followed by space, colon, space and the text decrypted with k. *)
Theorem brute_force_pass_lists_26_candidates
    (raw t raw_shift : text) (rest out : list text) :
  lower U (strip U raw) = str "d" ->
  strip U raw_shift = str "?" ->
  exists lines,
    iteration U {| stdin := raw :: t :: raw_shift :: rest; stdout := out |} =
      (Ok Continue,
       {| stdin := rest;
          stdout := out ++
            [mode_prompt; text_prompt; shift_prompt;
             (nl ++ str "Trying all 26 keys... (shift : candidate)") ++ nl]
            ++ lines ++ [nl] |})
    /\ List.length lines = 26%nat
    /\ forall k, (k < 26)%nat ->
         nth_error lines k =
           Some ((rjust 2 (str_int (Z.of_nat k)) ++ str " : "
                  ++ decrypt U t (Z.of_nat k)) ++ nl)
         /\ List.length (rjust 2 (str_int (Z.of_nat k))) = 2%nat.
Proof.
  intros Em Eq. eexists. split; [|split].
  - apply iteration_brute_force; assumption.
  - rewrite length_map. unfold brute_force_candidates, range.
    rewrite !length_map, length_seq. reflexivity.
  - intros k Hk. split; [|apply rjust_shift_field; exact Hk].
    rewrite nth_error_map, candidates_nth by exact Hk. reflexivity.
Qed.


(** X14. A mode line that is neither q, e nor d once stripped and
    lower-cased costs one line of input and nothing else: the pass
    writes the guidance (nothing when the line is blank) and the loop
    asks for the mode again. *)
Theorem unusable_mode_asks_again
    (raw : text) (rest out : list text) (fuel : nat) :
  let mode := lower U (strip U raw) in
  let w := {| stdin := raw :: rest; stdout := out |} in
  let w' := {| stdin := rest;
               stdout := out ++ mode_prompt ::
                 (if text_eqb mode [] then []
                  else [str "Please enter E, D, or Q." ++ nl]) |} in
  mode <> str "q" -> mode <> str "e" -> mode <> str "d" ->
  iteration U w = (Ok Continue, w')
  /\ while_true (S fuel) (iteration U) w = while_true fuel (iteration U) w'.
Proof.
  intros mode w w' Nq Ne Nd.
  assert (E : iteration U w = (Ok Continue, w')).
  { subst w w'. destruct (text_eq_dec mode []) as [E0 | N0].
    - rewrite iteration_empty_mode by exact E0.
      fold mode. rewrite E0. reflexivity.
    - rewrite iteration_other_mode by assumption.
      rewrite (text_eqb_neq _ _ N0). reflexivity. }
  split; [exact E|]. cbn [while_true]. rewrite E. reflexivity.
Qed.

(** X15. How [interactive] ends.  It always ends.  It ends normally
    only on a mode line that is q once stripped and lower-cased: the
    input after that line is left unread and the last thing written is
    the farewell.  Otherwise it ends by EOFError with the input used
    up. *)
Theorem interactive_exits (w : world) :
  exists r w',
    interactive U w = Some (r, w')
    /\ match r with
       | Ok _ =>
           exists pre raw out0,
             stdin w = pre ++ raw :: stdin w'
             /\ lower U (strip U raw) = str "q"
             /\ stdout w' = out0 ++ [mode_prompt; str "Goodbye!" ++ nl]
       | EOFError => stdin w' = []
       end.
Proof.
  pose proof (interactive_total U w) as Htot.
  destruct (interactive U w) as [[r w']|] eqn:E; [|contradiction].
  exists r, w'. split; [reflexivity|].
  unfold interactive in E. destruct (banner_run w) as [lines Eb].
  rewrite Eb in E. apply while_true_exit in E. exact E.
Qed.

(** X16. End of input is not caught: when the input ends at the mode
    prompt, or after a mode of e or d at the text prompt or at the shift
    prompt, the loop ends there by EOFError, and what was entered in
    that pass produces no output. *)
Theorem end_of_input_ends_the_loop (out : list text) (fuel : nat) :
  while_true (S fuel) (iteration U) {| stdin := []; stdout := out |} =
    Some (EOFError, {| stdin := []; stdout := out ++ [mode_prompt] |})
  /\ (forall raw : text,
        lower U (strip U raw) = str "e" \/ lower U (strip U raw) = str "d" ->
        while_true (S fuel) (iteration U) {| stdin := [raw]; stdout := out |} =
          Some (EOFError,
                {| stdin := [];
                   stdout := out ++ [mode_prompt; text_prompt] |}))
  /\ (forall raw t : text,
        lower U (strip U raw) = str "e" \/ lower U (strip U raw) = str "d" ->
        while_true (S fuel) (iteration U)
          {| stdin := [raw; t]; stdout := out |} =
          Some (EOFError,
                {| stdin := [];
                   stdout := out ++
                     [mode_prompt; text_prompt; shift_prompt] |})).
Proof.
  repeat split.
  - intros raw Hm. cbn [while_true].
    rewrite iteration_text_eof by exact Hm. reflexivity.
  - intros raw t Hm. cbn [while_true].
    rewrite iteration_shift_eof by exact Hm. reflexivity.
Qed.

End FrontEndBehaviour.

(** ** Instances *)

Lemma hello_ascii_letters : ascii_letters cpython_latin1 (str "Hello, World!").
Proof.
  unfold ascii_letters, str. simpl.
  repeat apply Forall_cons; try apply Forall_nil;
    intros H; (reflexivity || (vm_compute in H; discriminate H)).
Qed.

Lemma encrypt_compose_witness :
  encrypt cpython_latin1 (encrypt cpython_latin1 (str "Hello, World!") 3) 30 =
  encrypt cpython_latin1 (str "Hello, World!") (3 + 30).
Proof.
  apply (encrypt_compose cpython_latin1). exact cpython_latin1_ascii.
Defined.

Lemma codec_inverse_on_ascii_letters_witness :
  decrypt cpython_latin1 (encrypt cpython_latin1 (str "Hello, World!") (-7))
    (-7) = str "Hello, World!"
  /\ encrypt cpython_latin1 (decrypt cpython_latin1 (str "Hello, World!") (-7))
       (-7) = str "Hello, World!".
Proof.
  apply (codec_inverse_on_ascii_letters cpython_latin1).
  - exact cpython_latin1_ascii.
  - exact hello_ascii_letters.
Defined.

Lemma multiples_of_26_are_identity_witness :
  encrypt cpython_latin1 (str "Hello, World!") (26 * -2) = str "Hello, World!"
  /\ decrypt cpython_latin1 (str "Hello, World!") (26 * -2) =
       str "Hello, World!".
Proof.
  apply (multiples_of_26_are_identity cpython_latin1).
  - exact cpython_latin1_ascii.
  - exact hello_ascii_letters.
Defined.

Lemma shift_char_keeps_class_and_case_witness :
  isalpha cpython_latin1 (shift_char cpython_latin1 89 5) =
    isalpha cpython_latin1 89
  /\ isupper cpython_latin1 (shift_char cpython_latin1 89 5) =
       isupper cpython_latin1 89.
Proof.
  apply (shift_char_keeps_class_and_case cpython_latin1).
  exact cpython_latin1_ascii.
Defined.

Lemma encrypt_output_letters_are_ascii_witness :
  ascii_letters cpython_latin1 (encrypt cpython_latin1 [233; 72; 33] 4).
Proof.
  apply (encrypt_output_letters_are_ascii cpython_latin1).
  exact cpython_latin1_ascii.
Defined.

Lemma encrypt_valid_codepoints_witness :
  Forall valid_codepoint (encrypt cpython_latin1 [233; 72; 1114111] 4).
Proof.
  apply (encrypt_valid_codepoints cpython_latin1).
  repeat constructor; unfold valid_codepoint; lia.
Defined.

Lemma encrypt_injective_on_ascii_letters_witness :
  str "Hi!" = [72; 105; 33].
Proof.
  apply (encrypt_injective_on_ascii_letters cpython_latin1 _ _ 3).
  - exact cpython_latin1_ascii.
  - unfold ascii_letters, str. simpl.
    repeat apply Forall_cons; try apply Forall_nil;
      intros H; (reflexivity || (vm_compute in H; discriminate H)).
  - unfold ascii_letters.
    repeat apply Forall_cons; try apply Forall_nil;
      intros H; (reflexivity || (vm_compute in H; discriminate H)).
  - reflexivity.
Defined.

Lemma brute_force_recovers_plaintext_witness :
  nth_error
    (brute_force_candidates cpython_latin1
       (encrypt cpython_latin1 (str "Hello, World!") 29))
    (Z.to_nat (29 mod 26)) = Some (29 mod 26, str "Hello, World!")
  /\ nth_error
       (brute_force_candidates cpython_latin1
          (encrypt cpython_latin1 (str "Hello, World!") 29)) 0 =
       Some (0, encrypt cpython_latin1 (str "Hello, World!") 29).
Proof.
  apply (brute_force_recovers_plaintext cpython_latin1).
  - exact cpython_latin1_ascii.
  - exact hello_ascii_letters.
Defined.


Lemma brute_force_pass_lists_26_candidates_witness :
  exists lines,
    iteration cpython_latin1
      {| stdin := [str " D"; str "Khoor"; str "? "]; stdout := [] |} =
      (Ok Continue,
       {| stdin := [];
          stdout :=
            [mode_prompt; text_prompt; shift_prompt;
             (nl ++ str "Trying all 26 keys... (shift : candidate)") ++ nl]
            ++ lines ++ [nl] |})
    /\ List.length lines = 26%nat
    /\ forall k, (k < 26)%nat ->
         nth_error lines k =
           Some ((rjust 2 (str_int (Z.of_nat k)) ++ str " : "
                  ++ decrypt cpython_latin1 (str "Khoor") (Z.of_nat k)) ++ nl)
         /\ List.length (rjust 2 (str_int (Z.of_nat k))) = 2%nat.
Proof.
  apply (brute_force_pass_lists_26_candidates cpython_latin1
           (str " D") (str "Khoor") (str "? ") [] []).
  - reflexivity.
  - reflexivity.
Defined.


Lemma unusable_mode_asks_again_witness :
  iteration cpython_latin1
    {| stdin := [str "x"; str "q"]; stdout := [] |} =
    (Ok Continue,
     {| stdin := [str "q"];
        stdout := [mode_prompt; str "Please enter E, D, or Q." ++ nl] |})
  /\ while_true 2 (iteration cpython_latin1)
       {| stdin := [str "x"; str "q"]; stdout := [] |} =
     while_true 1 (iteration cpython_latin1)
       {| stdin := [str "q"];
          stdout := [mode_prompt; str "Please enter E, D, or Q." ++ nl] |}.
Proof.
  apply (unusable_mode_asks_again cpython_latin1 (str "x") [str "q"] [] 1%nat);
    intros H; vm_compute in H; discriminate H.
Defined.

Lemma end_of_input_ends_the_loop_witness :
  while_true 1 (iteration cpython_latin1)
    {| stdin := [str "e"; str "Hello"]; stdout := [] |} =
    Some (EOFError,
          {| stdin := [];
             stdout := [mode_prompt; text_prompt; shift_prompt] |}).
Proof.
  apply (proj2 (proj2 (end_of_input_ends_the_loop cpython_latin1 [] 0%nat))
           (str "e") (str "Hello")).
  left. reflexivity.
Defined.
